(** * Sorting engine of the locations table

    A shallow embedding of [src/App.tsx] (record normalisation, and the
    rows [App] hands to the table) and of [src/Table.tsx] (the comparator
    [compareValues] inside [sortItems], the inline comparator of the
    component's [sortedItems], the renderings of the component, and the sort
    descriptor held by the component).

    Conventions of the embedding:
    - a JavaScript [number] field is a [Z]: the data are whole numbers
      (months, years, totals), on which [<], [>], [-] and the conversion to a
      string are exact;
    - a JavaScript string is a [string], a sequence of character codes; the
      operator [<] on two strings is the lexicographic order on those codes;
    - [String.prototype.localeCompare] belongs to the platform, not to the
      repository: it is a parameter [localeCompare : string -> string -> Z],
      and each theorem lists what it needs from it;
    - [Array.prototype.sort] is the stable sort of the ECMAScript standard,
      written as an insertion sort driven by the sign of the comparator. *)

From Stdlib Require Import ZArith String Ascii List Sorted Permutation Lia.
From Stdlib Require Import DecimalString DecimalZ.
From Stdlib Require OrderedTypeEx.
From stdpp Require Import gmap strings list.

Local Open Scope Z_scope.

(** ** Data model *)

(** [LocationData] of [Table.tsx]. *)
Record LocationData := mkLocationData {
  id : string;
  location : string;
  month : Z;
  year : Z;
  total : Z
}.

(** [Omit<LocationData, 'id'>]: a raw row, before it is given an identity. *)
Record RawLocationData := mkRawLocationData {
  raw_location : string;
  raw_month : Z;
  raw_year : Z;
  raw_total : Z
}.

(** [keyof LocationData]. *)
Inductive Column := ColId | ColLocation | ColMonth | ColYear | ColTotal.

Inductive SortDirection := Ascending | Descending.

(** [SortDescriptor] of the UI toolkit, as the component uses it. *)
Record SortDescriptor := mkSortDescriptor {
  column : Column;
  direction : SortDirection
}.

(** The value of a property access [a[column]]: a string or a number. *)
Inductive value :=
| VString (s : string)
| VNumber (n : Z).

Definition field (a : LocationData) (column : Column) : value :=
  match column with
  | ColId => VString (id a)
  | ColLocation => VString (location a)
  | ColMonth => VNumber (month a)
  | ColYear => VNumber (year a)
  | ColTotal => VNumber (total a)
  end.

(** The columns whose header allows sorting in the rendered table. *)
Definition tableColumns : list Column := [ColLocation; ColMonth; ColYear; ColTotal].

(** The operator [<] of JavaScript on two property values. Both operands of a
    comparison come from the same column, so they are of the same kind
    ([field_same_kind] below); the mixed case is never evaluated. *)
Definition jsLt (u v : value) : bool :=
  match u, v with
  | VNumber m, VNumber n => m <? n
  | VString s, VString t => String.ltb s t
  | _, _ => false
  end.

(** ** [Array.prototype.sort] *)

(** [x] is placed in front of the first element it does not follow: an element
    that compares equal to [x] stays behind it, which makes the sort stable. *)
Fixpoint insertSorted {A : Type} (cmp : A -> A -> Z) (x : A) (l : list A) : list A :=
  match l with
  | [] => [x]
  | y :: l' => if cmp x y <=? 0 then x :: y :: l' else y :: insertSorted cmp x l'
  end.

Fixpoint arraySort {A : Type} (cmp : A -> A -> Z) (l : list A) : list A :=
  match l with
  | [] => []
  | x :: l' => insertSorted cmp x (arraySort cmp l')
  end.

(** ** The component's inline comparator ([Table.tsx], [sortedItems]) *)

Definition inlineCompare (column : Column) (direction : SortDirection)
    (a b : LocationData) : Z :=
  let first := field a column in
  let second := field b column in
  let cmp := if jsLt first second then -1 else if jsLt second first then 1 else 0 in
  match direction with
  | Ascending => cmp
  | Descending => - cmp
  end.

(** [[...props.items].sort((a, b) => ...)], as a value. *)
Definition sortedItems (items : list LocationData) (sortDescriptor : SortDescriptor)
    : list LocationData :=
  arraySort (inlineCompare (column sortDescriptor) (direction sortDescriptor)) items.

(** ** [sortItems] and its comparator *)

Section SortItems.

Variable localeCompare : string -> string -> Z.

Definition compareValues (column : Column) (direction : SortDirection)
    (a b : LocationData) : Z :=
  let aVal := field a column in
  let bVal := field b column in
  match aVal, bVal with
  | VString x, VString y =>
      let comparison := localeCompare x y in
      match direction with
      | Ascending => comparison
      | Descending => - comparison
      end
  | _, _ =>
      if jsLt aVal bVal then
        match direction with Ascending => -1 | Descending => 1 end
      else if jsLt bVal aVal then
        match direction with Ascending => 1 | Descending => -1 end
      else
        let locationCompare := localeCompare (location a) (location b) in
        if negb (locationCompare =? 0) then locationCompare
        else if negb (year a =? year b) then year b - year a
        else month b - month a
  end.

(** [items.slice().sort(compareValues)], as a value. The parameter
    [direction] has the default ['ascending'] in the source, for a call that
    leaves it out; here it is always given. *)
Definition sortItems (items : list LocationData) (column : Column)
    (direction : SortDirection) : list LocationData :=
  arraySort (compareValues column direction) items.

End SortItems.

(** ** Record normaliser ([App.tsx]) *)

(** The string a template literal gives for a whole number. *)
Definition numberToString (n : Z) : string :=
  NilZero.string_of_int (Z.to_int n).

Definition mapLocationResult (preprocessed : list RawLocationData) : list LocationData :=
  map (fun location =>
         {| id := raw_location location +:+ "-" +:+ numberToString (raw_month location)
                    +:+ "-" +:+ numberToString (raw_year location);
            location := raw_location location;
            month := raw_month location;
            year := raw_year location;
            total := raw_total location |})
      preprocessed.

(** ** Sort state of the component ([Table.tsx], [useState]) *)

(** The argument of [useState]. *)
Definition initialSortDescriptor : SortDescriptor :=
  {| column := ColLocation; direction := Ascending |}.

(** [onSortChange={setSortDescriptor}]: the descriptor the toolkit reports
    replaces the current one as a whole. *)
Definition setSortDescriptor (current next : SortDescriptor) : SortDescriptor := next.

Definition flipDirection (d : SortDirection) : SortDirection :=
  match d with
  | Ascending => Descending
  | Descending => Ascending
  end.

#[global] Instance Column_eq_dec : EqDecision Column.
Proof. solve_decision. Defined.

#[global] Instance SortDirection_eq_dec : EqDecision SortDirection.
Proof. solve_decision. Defined.

#[global] Instance value_eq_dec : EqDecision value.
Proof. solve_decision. Defined.

#[global] Instance LocationData_eq_dec : EqDecision LocationData.
Proof. solve_decision. Defined.

(** Modelled from the spec: the descriptor the UI toolkit passes to
    [onSortChange] when the user asks to sort by a column. The toolkit
    (react-aria-components) is a dependency and is not part of the sources;
    section 4.3 of the specification gives the rule: a new column starts
    ascending, the current column flips its direction. *)
Definition requestSort (current : SortDescriptor) (requested : Column) : SortDescriptor :=
  if decide (requested = column current)
  then {| column := column current; direction := flipDirection (direction current) |}
  else {| column := requested; direction := Ascending |}.

(** One [RequestSort(column)] event, from the toolkit to the component's state. *)
Definition sortStep (current : SortDescriptor) (requested : Column) : SortDescriptor :=
  setSortDescriptor current (requestSort current requested).

(** The state after a sequence of events, starting from the initial state. *)
Definition sortRun (events : list Column) : SortDescriptor :=
  fold_left sortStep events initialSortDescriptor.

(** ** Arrays as objects of a store

    [slice], the spread [[...xs]] and [sort] work on array objects: the first
    two allocate a new array, [sort] reorders the array it is called on and
    returns that same array. A store maps the address of an array to its
    contents. *)

Abbreviation store := (gmap nat (list LocationData)).

(** A computation over the store; [None] is a read of an address that holds
    no array, which a JavaScript program cannot produce. *)
Definition M (A : Type) : Type := store -> option (A * store).

#[global] Instance M_ret : MRet M := fun A x σ => Some (x, σ).

#[global] Instance M_bind : MBind M := fun A B f m σ =>
  match m σ with
  | Some (x, σ') => f x σ'
  | None => None
  end.

Definition readArray (r : nat) : M (list LocationData) :=
  fun σ => match σ !! r with
           | Some l => Some (l, σ)
           | None => None
           end.

Definition allocArray (l : list LocationData) : M nat :=
  fun σ => let r := fresh (dom σ) in Some (r, <[r := l]> σ).

(** [xs.slice()] *)
Definition slice (r : nat) : M nat :=
  l ← readArray r; allocArray l.

(** [[...xs]] *)
Definition spread (r : nat) : M nat :=
  l ← readArray r; allocArray l.

(** [xs.sort(cmp)]: sorts [xs] in place and returns [xs]. *)
Definition sortInPlace (cmp : LocationData -> LocationData -> Z) (r : nat) : M nat :=
  fun σ => match σ !! r with
           | Some l => Some (r, <[r := arraySort cmp l]> σ)
           | None => None
           end.

(** [sortItems], on array objects. *)
Definition sortItemsM (localeCompare : string -> string -> Z) (items : nat)
    (column : Column) (direction : SortDirection) : M nat :=
  copy ← slice items;
  sortInPlace (compareValues localeCompare column direction) copy.

(** The body of the component's [useMemo], on array objects;
    [props_items] is the address of [props.items]. *)
Definition sortedItemsM (props_items : nat) (sortDescriptor : SortDescriptor) : M nat :=
  items ← spread props_items;
  sortInPlace (inlineCompare (column sortDescriptor) (direction sortDescriptor)) items.

(** ** Notions used by the statements *)

(** The primary column does not decide between [a] and [b]: the collation
    gives 0 on a string column, neither [<] nor [>] holds on a number column. *)
Definition primaryTie (localeCompare : string -> string -> Z) (column : Column)
    (a b : LocationData) : Prop :=
  match field a column, field b column with
  | VString x, VString y => localeCompare x y = 0
  | u, v => jsLt u v = false /\ jsLt v u = false
  end.

(** No two records of the list, taken at different positions, tie. *)
Definition noTies (localeCompare : string -> string -> Z) (column : Column)
    (items : list LocationData) : Prop :=
  ForallOrdPairs (fun a b => ~ primaryTie localeCompare column a b) items.

(** Two records that no key of the comparator tells apart. *)
Definition fullTie (column : Column) (a b : LocationData) : Prop :=
  location a = location b /\ year a = year b /\ month a = month b /\
  field a column = field b column.

#[global] Instance fullTie_dec column a b : Decision (fullTie column a b).
Proof. unfold fullTie. apply _. Defined.

(** The triple the identity of a record is derived from. *)
Definition idKey (r : RawLocationData) : string * Z * Z :=
  (raw_location r, raw_month r, raw_year r).




(** A collation to run the comparator with: the order of the character
    codes. It is one admissible [localeCompare] among others. *)
Definition codeUnitCompare (s t : string) : Z :=
  match String.compare s t with
  | Eq => 0
  | Lt => -1
  | Gt => 1
  end.

(** ** The rest of the component and of the application *)

(** The constant [cmp] of the inline comparator, on the two values read. *)
Definition valueCompare (first second : value) : Z :=
  if jsLt first second then -1 else if jsLt second first then 1 else 0.

(** [App]: the rows handed to [Table] are the normalised values, and the
    table shows them in the order of [sortedItems]. [values] stands for the
    contents of [data.json], which is not part of the sources. *)
Definition appSortedItems (values : list RawLocationData)
    (sortDescriptor : SortDescriptor) : list LocationData :=
  sortedItems (mapLocationResult values) sortDescriptor.

(** The id template of [mapLocationResult], read on a normalised record. *)
Definition recordId (r : LocationData) : string :=
  location r +:+ "-" +:+ numberToString (month r) +:+ "-" +:+ numberToString (year r).

#[global] Instance SortDescriptor_eq_dec : EqDecision SortDescriptor.
Proof. solve_decision. Defined.

(** The cell of [useMemo]: the dependencies of the last computation (the
    address of [props.items] and the sort descriptor, that is column and
    direction) and the array that computation returned. It is empty before
    the first rendering. *)
Definition MemoCell : Type := option (nat * SortDescriptor * nat).

(** [useMemo(() => ..., [props.items, sortDescriptor.column,
    sortDescriptor.direction])]: the body runs at the first rendering and
    whenever a dependency differs from that of the last computation
    ([props.items] is compared by identity, column and direction by value);
    otherwise the array of the last computation is returned as it is. *)
Definition useMemoSortedItems (cell : MemoCell) (props_items : nat)
    (sortDescriptor : SortDescriptor) : M (nat * MemoCell) :=
  match cell with
  | Some (items0, sortDescriptor0, out0) =>
      if decide (items0 = props_items /\ sortDescriptor0 = sortDescriptor)
      then mret (out0, cell)
      else out ← sortedItemsM props_items sortDescriptor;
           mret (out, Some (props_items, sortDescriptor, out))
  | None =>
      out ← sortedItemsM props_items sortDescriptor;
      mret (out, Some (props_items, sortDescriptor, out))
  end.

(** The component is rendered once per sort descriptor of the list, with the
    same [props.items]; the result is the list of the arrays [useMemo] gave,
    one per rendering. *)
Fixpoint renderAll (cell : MemoCell) (props_items : nat)
    (sortDescriptors : list SortDescriptor) : M (list nat) :=
  match sortDescriptors with
  | [] => mret []
  | sortDescriptor :: rest =>
      r ← useMemoSortedItems cell props_items sortDescriptor;
      outs ← renderAll (snd r) props_items rest;
      mret (fst r :: outs)
  end.

(** From one rendering to the next, the array is the same exactly when the
    sort descriptor is the same; [prev] is the descriptor and the array of
    the rendering before the first of the list, if there is one. *)
Fixpoint chained (prev : option (SortDescriptor * nat))
    (sortDescriptors : list SortDescriptor) (outs : list nat) : Prop :=
  match sortDescriptors, outs with
  | [], [] => True
  | sortDescriptor :: rest, out :: outs' =>
      match prev with
      | Some (sortDescriptor0, out0) => sortDescriptor0 = sortDescriptor <-> out0 = out
      | None => True
      end /\ chained (Some (sortDescriptor, out)) rest outs'
  | _, _ => False
  end.

(** The memo cell names [props.items] and an array that holds it sorted. *)
Definition cellHolds (σ : store) (props_items : nat) (l : list LocationData)
    (cell : MemoCell) : Prop :=
  match cell with
  | None => True
  | Some (items0, sortDescriptor0, out0) =>
      items0 = props_items /\ σ !! out0 = Some (sortedItems l sortDescriptor0)
  end.

Definition cellPrev (cell : MemoCell) : option (SortDescriptor * nat) :=
  match cell with
  | None => None
  | Some (_, sortDescriptor0, out0) => Some (sortDescriptor0, out0)
  end.

(** Month, year and total hold numbers; id and location hold strings. *)
Definition numberColumn (column : Column) : bool :=
  match column with
  | ColMonth | ColYear | ColTotal => true
  | ColId | ColLocation => false
  end.

(** No two records of the list, taken at different positions, have the same
    value in the column. *)
Definition distinctValues (column : Column) (items : list LocationData) : Prop :=
  ForallOrdPairs (fun a b => field a column <> field b column) items.

(** The comparator of [sortItems] tells any two records of the list apart. *)
Definition separated (localeCompare : string -> string -> Z) (column : Column)
    (direction : SortDirection) (items : list LocationData) : Prop :=
  ForallOrdPairs
    (fun a b => compareValues localeCompare column direction a b <> 0) items.

(** Any two records of the list tie in the column. *)
Definition allTie (localeCompare : string -> string -> Z) (column : Column)
    (items : list LocationData) : Prop :=
  ForallOrdPairs (fun a b => primaryTie localeCompare column a b) items.

(** The fallback chain of [compareValues], on its own: location by collation,
    then the later year first, then the later month first. *)
Definition tieBreak (localeCompare : string -> string -> Z) (a b : LocationData) : Z :=
  let locationCompare := localeCompare (location a) (location b) in
  if negb (locationCompare =? 0) then locationCompare
  else if negb (year a =? year b) then year b - year a
  else month b - month a.

(** ** Sample data *)

Definition row (l : string) (m y t : Z) : RawLocationData :=
  {| raw_location := l; raw_month := m; raw_year := y; raw_total := t |}.

(** A normalised record, written out. *)
Definition record (i l : string) (m y t : Z) : LocationData :=
  {| id := i; location := l; month := m; year := y; total := t |}.

Definition x2020 : LocationData := record "X-1-2020" "X" 1 2020 5.
Definition x2021 : LocationData := record "X-1-2021" "X" 1 2021 5.
Definition leeds : LocationData := record "Leeds-3-2021" "Leeds" 3 2021 30.
Definition york : LocationData := record "York-7-2019" "York" 7 2019 10.
Definition bath : LocationData := record "Bath-12-2020" "Bath" 12 2020 20.

(** * Properties *)

(** ** The sort of arrays *)

Section ArraySort.

Context {A : Type} (cmp : A -> A -> Z).

Lemma insertSorted_Permutation (x : A) (l : list A) :
  Permutation (x :: l) (insertSorted cmp x l).
Proof.
  induction l as [|y l IH]; simpl; [reflexivity|].
  destruct (cmp x y <=? 0); [reflexivity|].
  rewrite perm_swap. now apply perm_skip.
Qed.

Lemma arraySort_Permutation (l : list A) : Permutation l (arraySort cmp l).
Proof.
  induction l as [|x l IH]; simpl; [constructor|].
  rewrite <- insertSorted_Permutation. now apply perm_skip.
Qed.

Lemma arraySort_length (l : list A) : List.length (arraySort cmp l) = List.length l.
Proof. symmetry. apply Permutation_length, arraySort_Permutation. Qed.

(** The output is ordered by the comparator, as soon as the comparator never
    answers "after" in both directions. *)
Lemma insertSorted_Sorted (x : A) (l : list A) :
  (forall a b, 0 < cmp a b -> cmp b a <= 0) ->
  Sorted (fun a b => cmp a b <= 0) l ->
  Sorted (fun a b => cmp a b <= 0) (insertSorted cmp x l).
Proof.
  intros Hanti. induction 1 as [|y l Hl IH Hy]; simpl.
  - repeat constructor.
  - destruct (Z.leb_spec (cmp x y) 0) as [Hle|Hgt].
    + repeat constructor; assumption.
    + constructor; [exact IH|].
      destruct Hy as [|z l Hyz]; simpl.
      * constructor. now apply Hanti.
      * destruct (cmp x z <=? 0); constructor; auto.
Qed.

Lemma arraySort_Sorted (l : list A) :
  (forall a b, 0 < cmp a b -> cmp b a <= 0) ->
  Sorted (fun a b => cmp a b <= 0) (arraySort cmp l).
Proof.
  intros Hanti. induction l as [|x l IH]; simpl; [constructor|].
  now apply insertSorted_Sorted.
Qed.

(** An element that follows everything in [l] goes to the end. *)
Lemma insertSorted_last (x : A) (l : list A) :
  Forall (fun y => 0 < cmp x y) l -> insertSorted cmp x l = l ++ [x].
Proof.
  induction 1 as [|y l Hy _ IH]; simpl; [reflexivity|].
  destruct (Z.leb_spec (cmp x y) 0); [lia|]. now rewrite IH.
Qed.

(** The search for the place of [x] stops at the first element that [x] does
    not follow. *)
Lemma insertSorted_app (x y : A) (l1 l2 : list A) :
  cmp x y <= 0 ->
  insertSorted cmp x (l1 ++ y :: l2) = insertSorted cmp x l1 ++ y :: l2.
Proof.
  intros Hxy. induction l1 as [|z l1 IH]; simpl.
  - destruct (Z.leb_spec (cmp x y) 0); [reflexivity|lia].
  - destruct (cmp x z <=? 0); [reflexivity|]. now rewrite IH.
Qed.

(** Stability: the records of a class [P] on which the comparator never
    answers "after" keep their order. *)
Lemma insertSorted_filter (P : A -> Prop) `{!forall y, Decision (P y)}
    (x : A) (l : list A) :
  (forall y, P x -> P y -> cmp x y <= 0) ->
  filter P (insertSorted cmp x l) = filter P (x :: l).
Proof.
  intros HP. induction l as [|y l IH]; simpl; [reflexivity|].
  destruct (Z.leb_spec (cmp x y) 0) as [Hle|Hgt]; [reflexivity|].
  rewrite filter_cons, IH, !filter_cons.
  destruct (decide (P y)) as [Hy|Hy], (decide (P x)) as [Hx|Hx];
    try reflexivity.
  specialize (HP y Hx Hy). lia.
Qed.

Lemma arraySort_filter (P : A -> Prop) `{!forall y, Decision (P y)} (l : list A) :
  (forall x y, P x -> P y -> cmp x y <= 0) ->
  filter P (arraySort cmp l) = filter P l.
Proof.
  intros HP. induction l as [|x l IH]; simpl; [reflexivity|].
  rewrite insertSorted_filter by (intros y; apply HP).
  now rewrite !filter_cons, IH.
Qed.

End ArraySort.

(** ** The comparators *)

Lemma field_same_kind (column : Column) (a b : LocationData) :
  match field a column, field b column with
  | VString _, VString _ | VNumber _, VNumber _ => True
  | _, _ => False
  end.
Proof. destruct column; exact I. Qed.

Lemma fullTie_sym column a b : fullTie column a b -> fullTie column b a.
Proof. unfold fullTie. intuition congruence. Qed.

Lemma fullTie_trans column a b c :
  fullTie column a b -> fullTie column b c -> fullTie column a c.
Proof. unfold fullTie. intuition congruence. Qed.

Section Comparator.

Variable localeCompare : string -> string -> Z.

Hypothesis localeCompare_refl : forall s, localeCompare s s = 0.

(** On a number column a tie of the primary comparison is settled by the
    fallback chain, whatever the direction: location by collation, then the
    later year first, then the later month first. *)
Lemma compareValues_tie_chain (column : Column) (direction : SortDirection)
    (a b : LocationData) :
  column = ColMonth \/ column = ColYear \/ column = ColTotal ->
  primaryTie localeCompare column a b ->
  let locationCompare := localeCompare (location a) (location b) in
  (locationCompare <> 0 ->
   compareValues localeCompare column direction a b = locationCompare) /\
  (locationCompare = 0 -> year a <> year b ->
   compareValues localeCompare column direction a b = year b - year a) /\
  (locationCompare = 0 -> year a = year b ->
   compareValues localeCompare column direction a b = month b - month a).
Proof.
  intros Hcol Htie. unfold primaryTie in Htie. unfold compareValues.
  destruct Hcol as [-> | [-> | ->]]; simpl in *;
    destruct Htie as [-> ->]; cbv zeta;
    (repeat split; intros;
     [ destruct (Z.eqb_spec (localeCompare (location a) (location b)) 0);
       [contradiction | reflexivity]
     | destruct (Z.eqb_spec (localeCompare (location a) (location b)) 0);
       [|contradiction]; destruct (Z.eqb_spec (year a) (year b));
       [contradiction | reflexivity]
     | destruct (Z.eqb_spec (localeCompare (location a) (location b)) 0);
       [|contradiction]; destruct (Z.eqb_spec (year a) (year b));
       [reflexivity | contradiction] ]).
Qed.

Lemma compareValues_fullTie (column : Column) (direction : SortDirection)
    (a b : LocationData) :
  fullTie column a b -> compareValues localeCompare column direction a b = 0.
Proof.
  intros (Hloc & Hyear & Hmonth & Hfield). unfold compareValues.
  rewrite Hfield. destruct (field b column) as [s|n]; simpl.
  - rewrite localeCompare_refl. now destruct direction.
  - rewrite Z.ltb_irrefl, Hloc, localeCompare_refl, Hyear, !Z.eqb_refl. simpl. lia.
Qed.

End Comparator.

(** ** Sorting one way, then the other

    [up] and [down] are two comparators that answer with opposite signs on
    every pair related by [R], and [up] is a strict order on such pairs. *)

Section Reverse.

Context {A : Type} (up down : A -> A -> Z) (R : A -> A -> Prop).

Hypothesis R_sym : forall a b, R a b -> R b a.
Hypothesis up_decides : forall a b, R a b -> up a b <> 0.
Hypothesis down_opposite : forall a b, R a b -> down a b = - up a b.
Hypothesis up_antisym : forall a b, R a b -> 0 < up a b -> up b a < 0.
Hypothesis up_trans : forall a b c,
  R a b -> R b c -> R a c -> up a b < 0 -> up b c < 0 -> up a c < 0.

(** [a] is strictly before [b]. *)
Let before (a b : A) : Prop := R a b /\ up a b < 0.

Lemma ForallOrdPairs_before_R (l : list A) :
  ForallOrdPairs before l -> ForallOrdPairs R l.
Proof.
  induction 1 as [|a l Ha _ IH]; constructor; [|exact IH].
  eapply Forall_impl; [exact Ha|]. now intros b [Hb _].
Qed.

Lemma insertSorted_before (x : A) (s : list A) :
  ForallOrdPairs before s -> Forall (R x) s ->
  ForallOrdPairs before (insertSorted up x s).
Proof.
  induction 1 as [|y s Hy Hs IH]; intros Hx; simpl.
  - repeat constructor.
  - apply Forall_cons_1 in Hx as [Hxy Hxs].
    destruct (Z.leb_spec (up x y) 0) as [Hle|Hgt].
    + assert (up x y < 0) as Hlt by (specialize (up_decides x y Hxy); lia).
      constructor; [|now constructor].
      constructor; [now split|].
      rewrite Forall_forall in Hy, Hxs |- *. intros z Hz.
      destruct (Hy z Hz) as [Ryz Hyz]. split; [now apply Hxs|].
      apply (up_trans x y z); auto.
    + constructor; [|now apply IH].
      eapply Permutation_Forall; [apply insertSorted_Permutation|].
      constructor; [|exact Hy]. split; [now apply R_sym|now apply up_antisym].
Qed.

Lemma arraySort_before (l : list A) :
  ForallOrdPairs R l -> ForallOrdPairs before (arraySort up l).
Proof.
  induction 1 as [|x l Hx _ IH]; simpl; [constructor|].
  apply insertSorted_before; [exact IH|].
  eapply Permutation_Forall; [apply arraySort_Permutation|exact Hx].
Qed.

Lemma insertSorted_rev (x : A) (s : list A) :
  ForallOrdPairs before s -> Forall (R x) s ->
  insertSorted down x (rev s) = rev (insertSorted up x s).
Proof.
  induction 1 as [|y s Hy Hs IH]; intros Hx; simpl; [reflexivity|].
  apply Forall_cons_1 in Hx as [Hxy Hxs].
  pose proof (up_decides x y Hxy) as Hne.
  pose proof (down_opposite x y Hxy) as Hopp.
  destruct (Z.leb_spec (up x y) 0) as [Hle|Hgt].
  - simpl. apply insertSorted_last.
    apply Forall_app; split; [apply Forall_rev|].
    + rewrite Forall_forall in Hy, Hxs |- *. intros z Hz.
      destruct (Hy z Hz) as [Ryz Hyz].
      rewrite (down_opposite x z) by now apply Hxs.
      assert (up x z < 0) by (apply (up_trans x y z); auto; lia). lia.
    + repeat constructor. lia.
  - simpl. rewrite insertSorted_app by lia. now rewrite IH.
Qed.

Lemma arraySort_down_rev (l : list A) :
  ForallOrdPairs R l -> arraySort down l = rev (arraySort up l).
Proof.
  induction 1 as [|x l Hx Hl IH]; simpl; [reflexivity|].
  rewrite IH. apply insertSorted_rev; [now apply arraySort_before|].
  eapply Permutation_Forall; [apply arraySort_Permutation|exact Hx].
Qed.

Lemma arraySort_up_down_rev (l : list A) :
  ForallOrdPairs R l ->
  arraySort down (arraySort up l) = rev (arraySort up l).
Proof.
  intros Hl.
  assert (arraySort up (arraySort up l) = arraySort up l) as Hidem.
  { pose proof (arraySort_before l Hl) as Hs.
    induction Hs as [|y s Hy Hs IH]; simpl; [reflexivity|].
    rewrite IH. destruct s as [|z s]; simpl; [reflexivity|].
    apply Forall_cons_1 in Hy as [[_ Hyz] _].
    destruct (Z.leb_spec (up y z) 0); [reflexivity|lia]. }
  rewrite <- Hidem at 2.
  apply arraySort_down_rev, ForallOrdPairs_before_R, arraySort_before, Hl.
Qed.

End Reverse.

(** ** Ascending and descending comparators of [sortItems] *)

Ltac case_ltb :=
  repeat match goal with
         | |- context [Z.ltb ?x ?y] => destruct (Z.ltb_spec x y)
         | H : context [Z.ltb ?x ?y] |- _ => destruct (Z.ltb_spec x y)
         end.

Ltac by_column column :=
  unfold primaryTie, compareValues; destruct column; simpl.

Section Directions.

Variable localeCompare : string -> string -> Z.

Hypothesis localeCompare_antisym :
  forall s t, Z.sgn (localeCompare t s) = - Z.sgn (localeCompare s t).
Hypothesis localeCompare_trans :
  forall s t u, localeCompare s t < 0 -> localeCompare t u < 0 -> localeCompare s u < 0.

Variable column : Column.

Let up := compareValues localeCompare column Ascending.
Let down := compareValues localeCompare column Descending.
Let untied (a b : LocationData) : Prop := ~ primaryTie localeCompare column a b.

Lemma untied_sym a b : untied a b -> untied b a.
Proof.
  subst untied. by_column column; intros H;
    try (pose proof (localeCompare_antisym (id a) (id b)));
    try (pose proof (localeCompare_antisym (location a) (location b)));
    try lia; tauto.
Qed.

Lemma up_decides a b : untied a b -> up a b <> 0.
Proof.
  subst untied up. by_column column; intros H; try lia;
    case_ltb; try lia; exfalso; apply H; split; reflexivity.
Qed.

Lemma down_opposite a b : untied a b -> down a b = - up a b.
Proof.
  subst untied up down. by_column column; intros H; try lia;
    case_ltb; try lia; exfalso; apply H; split; reflexivity.
Qed.

Lemma up_antisym a b : untied a b -> 0 < up a b -> up b a < 0.
Proof.
  subst untied up. by_column column; intros H;
    try (pose proof (localeCompare_antisym (id a) (id b)));
    try (pose proof (localeCompare_antisym (location a) (location b)));
    try lia; case_ltb; try lia; exfalso; apply H; split; reflexivity.
Qed.

Lemma up_trans a b c :
  untied a b -> untied b c -> untied a c -> up a b < 0 -> up b c < 0 -> up a c < 0.
Proof.
  subst untied up. by_column column; intros Hab Hbc Hac;
    try (apply localeCompare_trans);
    case_ltb; try lia; intros; exfalso;
    (apply Hab; split; reflexivity) || (apply Hbc; split; reflexivity)
    || (apply Hac; split; reflexivity).
Qed.

End Directions.

(** ** The order of character codes is a collation *)

Lemma codeUnitCompare_refl (s : string) : codeUnitCompare s s = 0.
Proof.
  unfold codeUnitCompare.
  change String.compare with OrderedTypeEx.String_as_OT.cmp.
  now rewrite (proj2 (OrderedTypeEx.String_as_OT.cmp_eq s s) eq_refl).
Qed.

Lemma codeUnitCompare_antisym (s t : string) :
  Z.sgn (codeUnitCompare t s) = - Z.sgn (codeUnitCompare s t).
Proof.
  unfold codeUnitCompare. rewrite (String.compare_antisym t s).
  now destruct (String.compare s t).
Qed.

Lemma codeUnitCompare_lt (s t : string) :
  codeUnitCompare s t < 0 <-> String.compare s t = Lt.
Proof.
  unfold codeUnitCompare. destruct (String.compare s t); split; intros H;
    try reflexivity; try discriminate; lia.
Qed.

Lemma codeUnitCompare_trans (s t u : string) :
  codeUnitCompare s t < 0 -> codeUnitCompare t u < 0 -> codeUnitCompare s u < 0.
Proof.
  rewrite !codeUnitCompare_lt.
  change String.compare with OrderedTypeEx.String_as_OT.cmp.
  rewrite !OrderedTypeEx.String_as_OT.cmp_lt.
  apply OrderedTypeEx.String_as_OT.lt_trans.
Qed.

(** ** The comparator of [sortItems] on ties *)

(** C1. The claim asks for the fallback chain (location, later year first,
    later month first) on every tie of the primary column. On the location
    column the string branch of [compareValues] returns at once: two records
    whose locations tie get 0, whatever their years and months. *)
Theorem compareValues_location_tie_skips_chain
    (localeCompare : string -> string -> Z) (direction : SortDirection)
    (a b : LocationData) :
  primaryTie localeCompare ColLocation a b ->
  compareValues localeCompare ColLocation direction a b = 0.
Proof.
  unfold primaryTie, compareValues. simpl. intros ->. now destruct direction.
Qed.

Lemma compareValues_location_tie_skips_chain_witness :
  compareValues codeUnitCompare ColLocation Ascending x2020 x2021 = 0 /\
  year x2020 <> year x2021.
Proof.
  split.
  - apply (compareValues_location_tie_skips_chain codeUnitCompare Ascending x2020 x2021).
    reflexivity.
  - discriminate.
Defined.

(** C2. The sequence shown by the table and the sequence [sortItems] gives
    differ: on two records with the same total and location, the inline
    comparator of [sortedItems] answers 0 and keeps the input order, while
    [sortItems] puts the later year first. *)
Theorem sortedItems_differs_from_sortItems (localeCompare : string -> string -> Z) :
  localeCompare "X" "X" = 0 ->
  sortedItems [x2020; x2021] {| column := ColTotal; direction := Ascending |}
    = [x2020; x2021] /\
  sortItems localeCompare [x2020; x2021] ColTotal Ascending = [x2021; x2020].
Proof.
  intros Hx. split; [reflexivity|].
  unfold sortItems. simpl. unfold compareValues. simpl. now rewrite Hx.
Qed.

Lemma sortedItems_differs_from_sortItems_witness :
  sortedItems [x2020; x2021] {| column := ColTotal; direction := Ascending |}
    <> sortItems codeUnitCompare [x2020; x2021] ColTotal Ascending.
Proof.
  destruct (sortedItems_differs_from_sortItems codeUnitCompare eq_refl) as [-> ->].
  discriminate.
Defined.

(** C3. Two records that agree on location, year, month and the primary
    column get exactly 0 from the comparator; the sort keeps the records of
    such a class in their input order; and [[A; B]] with [A] and [B] alike,
    sorted by total ascending, is [[A; B]]. *)
Theorem full_ties_keep_input_order (localeCompare : string -> string -> Z)
    (column : Column) (direction : SortDirection) :
  (forall s, localeCompare s s = 0) ->
  (forall a b, fullTie column a b ->
               compareValues localeCompare column direction a b = 0) /\
  (forall items x,
      filter (fullTie column x) (sortItems localeCompare items column direction)
      = filter (fullTie column x) items) /\
  (let A := record "X-1-2020" "X" 1 2020 5 in
   let B := record "X-1-2020" "X" 1 2020 5 in
   sortItems localeCompare [A; B] ColTotal Ascending = [A; B]).
Proof.
  intros Hrefl. split; [|split].
  - intros a b. now apply compareValues_fullTie.
  - intros items x. unfold sortItems. apply arraySort_filter.
    intros a b Ha Hb.
    rewrite (compareValues_fullTie localeCompare Hrefl column direction a b);
      [lia|]. eapply fullTie_trans; [apply fullTie_sym|]; eassumption.
  - intros A B. unfold sortItems. simpl.
    rewrite (compareValues_fullTie localeCompare Hrefl ColTotal Ascending A B);
      [reflexivity|]. now repeat split.
Qed.

Lemma full_ties_keep_input_order_witness :
  compareValues codeUnitCompare ColTotal Ascending x2020 x2020 = 0 /\
  filter (fullTie ColTotal x2020)
    (sortItems codeUnitCompare [leeds; x2020; bath; x2020] ColTotal Ascending)
  = [x2020; x2020].
Proof.
  destruct (full_ties_keep_input_order codeUnitCompare ColTotal Ascending
              codeUnitCompare_refl) as (Hzero & Hstable & _).
  split.
  - apply Hzero. now repeat split.
  - rewrite Hstable. reflexivity.
Defined.

(** ** Ascending against descending *)

(** C4. When no two records of the list tie in the chosen column, sorting by
    that column descending gives the reverse of the ascending sequence, both
    from the original list and from the list already sorted ascending. The
    collation is assumed to be an order: antisymmetric and transitive. *)
Theorem descending_reverses_ascending (localeCompare : string -> string -> Z)
    (column : Column) (items : list LocationData) :
  (forall s t, Z.sgn (localeCompare t s) = - Z.sgn (localeCompare s t)) ->
  (forall s t u, localeCompare s t < 0 -> localeCompare t u < 0 ->
                 localeCompare s u < 0) ->
  noTies localeCompare column items ->
  sortItems localeCompare items column Descending
  = rev (sortItems localeCompare items column Ascending) /\
  sortItems localeCompare (sortItems localeCompare items column Ascending)
    column Descending
  = rev (sortItems localeCompare items column Ascending).
Proof.
  intros Hanti Htrans Hties. unfold sortItems, noTies in *.
  split;
    [ eapply arraySort_down_rev with
        (R := fun a b => ~ primaryTie localeCompare column a b)
    | eapply arraySort_up_down_rev with
        (R := fun a b => ~ primaryTie localeCompare column a b) ];
    eauto using untied_sym, up_decides, down_opposite, up_antisym, up_trans.
Qed.

Lemma descending_reverses_ascending_witness :
  sortItems codeUnitCompare [leeds; york; bath] ColTotal Descending
  = [leeds; bath; york] /\
  sortItems codeUnitCompare [leeds; york; bath] ColLocation Descending
  = rev (sortItems codeUnitCompare [leeds; york; bath] ColLocation Ascending).
Proof.
  split.
  - rewrite (proj1 (descending_reverses_ascending codeUnitCompare ColTotal
                      [leeds; york; bath]
                      codeUnitCompare_antisym codeUnitCompare_trans
                      ltac:(repeat constructor; vm_compute; intros [H1 H2];
                            discriminate))).
    reflexivity.
  - apply (descending_reverses_ascending codeUnitCompare ColLocation
             [leeds; york; bath]
             codeUnitCompare_antisym codeUnitCompare_trans).
    repeat constructor; vm_compute; discriminate.
Defined.

(** ** The sort keeps the records *)

(** C10. The output of [sortItems] and of the component's [sortedItems] is a
    permutation of the input, and so has its length. *)
Theorem sort_output_is_permutation (localeCompare : string -> string -> Z)
    (items : list LocationData) (column : Column) (direction : SortDirection)
    (sortDescriptor : SortDescriptor) :
  Permutation items (sortItems localeCompare items column direction) /\
  List.length (sortItems localeCompare items column direction) = List.length items /\
  Permutation items (sortedItems items sortDescriptor) /\
  List.length (sortedItems items sortDescriptor) = List.length items.
Proof.
  unfold sortItems, sortedItems.
  repeat split; auto using arraySort_Permutation, arraySort_length.
Qed.

(** ** Record normaliser *)


(** C6. [mapLocationResult] gives one record per raw row, in the order of the
    input; the record at position [i] has the fields of the raw row at
    position [i] and the id [location-month-year]. *)
Theorem mapLocationResult_one_record_per_row (preprocessed : list RawLocationData) :
  List.length (mapLocationResult preprocessed) = List.length preprocessed /\
  forall i r,
    nth_error preprocessed i = Some r ->
    nth_error (mapLocationResult preprocessed) i =
    Some {| id := raw_location r +:+ "-" +:+ numberToString (raw_month r)
                    +:+ "-" +:+ numberToString (raw_year r);
            location := raw_location r;
            month := raw_month r;
            year := raw_year r;
            total := raw_total r |}.
Proof.
  unfold mapLocationResult. split; [apply length_map|].
  intros i r Hr. now rewrite nth_error_map, Hr.
Qed.

Lemma mapLocationResult_one_record_per_row_witness :
  nth_error (mapLocationResult [row "York" 7 2019 10; row "Leeds" 3 2021 30]) 1
  = Some leeds.
Proof.
  apply (proj2 (mapLocationResult_one_record_per_row
                  [row "York" 7 2019 10; row "Leeds" 3 2021 30]) 1%nat
               (row "Leeds" 3 2021 30)).
  reflexivity.
Defined.














(** Distinct triples alone do not keep the ids apart: a negative month puts a
    second dash after the location, which a location ending in a dash gives
    as well. *)
Lemma negative_month_ids_collide :
  idKey (row "a" (-1) 2020 5) <> idKey (row "a-" 1 2020 5) /\
  map id (mapLocationResult [row "a" (-1) 2020 5])
  = map id (mapLocationResult [row "a-" 1 2020 5]).
Proof. split; [discriminate|reflexivity]. Qed.



(** ** Sort state *)

(** C5. The state starts as (location, ascending). After any sequence of
    requests, a request for another column leads to that column, ascending;
    a request for the current column keeps the column and flips the
    direction: ascending becomes descending, descending becomes ascending. *)
Theorem sort_state_transitions :
  sortRun [] = {| column := ColLocation; direction := Ascending |} /\
  forall (events : list Column) (requested : Column),
    let current := sortRun events in
    (requested <> column current ->
     sortRun (events ++ [requested])
     = {| column := requested; direction := Ascending |}) /\
    (requested = column current -> direction current = Ascending ->
     sortRun (events ++ [requested])
     = {| column := column current; direction := Descending |}) /\
    (requested = column current -> direction current = Descending ->
     sortRun (events ++ [requested])
     = {| column := column current; direction := Ascending |}).
Proof.
  split; [reflexivity|]. intros events requested current.
  unfold sortRun. rewrite fold_left_app. simpl.
  fold (sortRun events). fold current.
  unfold sortStep, setSortDescriptor, requestSort.
  destruct (decide (requested = column current)) as [Heq|Hne].
  - split; [intros H; contradiction|].
    split; intros _ Hdir; rewrite Hdir; reflexivity.
  - split; [reflexivity|]. split; intros H; contradiction.
Qed.

Lemma sort_state_transitions_witness :
  sortRun ([ColTotal; ColTotal] ++ [ColYear])
  = {| column := ColYear; direction := Ascending |} /\
  sortRun ([ColTotal] ++ [ColTotal])
  = {| column := ColTotal; direction := Descending |} /\
  sortRun ([ColTotal; ColTotal] ++ [ColTotal])
  = {| column := ColTotal; direction := Ascending |}.
Proof.
  split; [|split].
  - apply (proj1 (proj2 sort_state_transitions [ColTotal; ColTotal] ColYear)).
    discriminate.
  - apply (proj1 (proj2 (proj2 sort_state_transitions [ColTotal] ColTotal)));
      reflexivity.
  - apply (proj2 (proj2 (proj2 sort_state_transitions [ColTotal; ColTotal] ColTotal)));
      reflexivity.
Defined.

(** ** The sort on array objects *)

Lemma copy_then_sort (cmp : LocationData -> LocationData -> Z)
    (σ : store) (items : nat) (l : list LocationData) :
  σ !! items = Some l ->
  let out := fresh (dom σ) in
  (l' ← readArray items; allocArray l') σ = Some (out, <[out := l]> σ) /\
  sortInPlace cmp out (<[out := l]> σ) = Some (out, <[out := arraySort cmp l]> σ) /\
  out <> items /\ σ !! out = None.
Proof.
  intros Hl out.
  assert (σ !! out = None) as Hfresh.
  { apply not_elem_of_dom. apply is_fresh. }
  repeat split.
  - unfold mbind, M_bind, readArray, allocArray. now rewrite Hl.
  - unfold sortInPlace. now rewrite lookup_insert_eq, insert_insert_eq.
  - intros ->. congruence.
  - exact Hfresh.
Qed.

(** What a call of [sortItems] does to the store. *)
Lemma sortItemsM_run (localeCompare : string -> string -> Z) (σ : store)
    (items : nat) (l : list LocationData) (column : Column)
    (direction : SortDirection) :
  σ !! items = Some l ->
  let out := fresh (dom σ) in
  sortItemsM localeCompare items column direction σ
  = Some (out, <[out := sortItems localeCompare l column direction]> σ) /\
  out <> items /\ σ !! out = None.
Proof.
  intros Hl out.
  destruct (copy_then_sort (compareValues localeCompare column direction) σ items l Hl)
    as (Hcopy & Hsort & Hne & Hfresh).
  repeat split; try assumption.
  unfold sortItemsM, slice. unfold mbind at 1. unfold M_bind at 1.
  rewrite Hcopy. exact Hsort.
Qed.

Lemma sortedItemsM_run (σ : store) (props_items : nat) (l : list LocationData)
    (sortDescriptor : SortDescriptor) :
  σ !! props_items = Some l ->
  let out := fresh (dom σ) in
  sortedItemsM props_items sortDescriptor σ
  = Some (out, <[out := sortedItems l sortDescriptor]> σ) /\
  out <> props_items /\ σ !! out = None.
Proof.
  intros Hl out.
  destruct (copy_then_sort
              (inlineCompare (column sortDescriptor) (direction sortDescriptor))
              σ props_items l Hl)
    as (Hcopy & Hsort & Hne & Hfresh).
  repeat split; try assumption.
  unfold sortedItemsM, spread. unfold mbind at 1. unfold M_bind at 1.
  rewrite Hcopy. exact Hsort.
Qed.

(** C8. A call of [sortItems], and the component's [sortedItems] computation,
    leave the input array as it was and return a new array: the address
    returned was not in use, is not the input's, holds the sorted sequence,
    and every other array of the store is unchanged. *)
Theorem sort_does_not_mutate_input (localeCompare : string -> string -> Z)
    (σ : store) (items : nat) (l : list LocationData) (column : Column)
    (direction : SortDirection) (sortDescriptor : SortDescriptor) :
  σ !! items = Some l ->
  (exists out σ',
      sortItemsM localeCompare items column direction σ = Some (out, σ') /\
      out <> items /\ σ !! out = None /\
      σ' !! items = Some l /\
      σ' !! out = Some (sortItems localeCompare l column direction) /\
      forall r, r <> out -> σ' !! r = σ !! r) /\
  (exists out σ',
      sortedItemsM items sortDescriptor σ = Some (out, σ') /\
      out <> items /\ σ !! out = None /\
      σ' !! items = Some l /\
      σ' !! out = Some (sortedItems l sortDescriptor) /\
      forall r, r <> out -> σ' !! r = σ !! r).
Proof.
  intros Hl. split.
  - destruct (sortItemsM_run localeCompare σ items l column direction Hl)
      as (Hrun & Hne & Hfresh).
    eexists _, _. split; [exact Hrun|]. repeat split; try assumption.
    + now rewrite lookup_insert_ne.
    + apply lookup_insert_eq.
    + intros r Hr. now rewrite lookup_insert_ne.
  - destruct (sortedItemsM_run σ items l sortDescriptor Hl)
      as (Hrun & Hne & Hfresh).
    eexists _, _. split; [exact Hrun|]. repeat split; try assumption.
    + now rewrite lookup_insert_ne.
    + apply lookup_insert_eq.
    + intros r Hr. now rewrite lookup_insert_ne.
Qed.

Lemma sort_does_not_mutate_input_witness :
  exists out σ',
    sortItemsM codeUnitCompare 0%nat ColTotal Ascending {[ 0%nat := [leeds; york; bath] ]}
    = Some (out, σ') /\
    σ' !! 0%nat = Some [leeds; york; bath] /\
    σ' !! out = Some [york; bath; leeds].
Proof.
  destruct (proj1 (sort_does_not_mutate_input codeUnitCompare
                     {[ 0%nat := [leeds; york; bath] ]} 0%nat [leeds; york; bath]
                     ColTotal Ascending initialSortDescriptor
                     (lookup_singleton_eq 0%nat [leeds; york; bath])))
    as (out & σ' & Hrun & _ & _ & Hin & Hout & _).
  exists out, σ'. repeat split; assumption.
Defined.

(** C9. Two calls of [sortItems] on the same array with the same column and
    direction, one after the other, return two arrays with the same contents. *)
Theorem sortItems_twice_same_sequence (localeCompare : string -> string -> Z)
    (σ : store) (items : nat) (l : list LocationData) (column : Column)
    (direction : SortDirection) :
  σ !! items = Some l ->
  exists out1 σ1 out2 σ2,
    sortItemsM localeCompare items column direction σ = Some (out1, σ1) /\
    sortItemsM localeCompare items column direction σ1 = Some (out2, σ2) /\
    out1 <> out2 /\
    σ2 !! out1 = Some (sortItems localeCompare l column direction) /\
    σ2 !! out2 = Some (sortItems localeCompare l column direction).
Proof.
  intros Hl.
  destruct (sortItemsM_run localeCompare σ items l column direction Hl)
    as (Hrun1 & Hne1 & Hfresh1).
  set (out1 := fresh (dom σ)) in *.
  set (σ1 := <[out1 := sortItems localeCompare l column direction]> σ) in *.
  assert (σ1 !! items = Some l) as Hl1.
  { subst σ1. now rewrite lookup_insert_ne. }
  destruct (sortItemsM_run localeCompare σ1 items l column direction Hl1)
    as (Hrun2 & Hne2 & Hfresh2).
  set (out2 := fresh (dom σ1)) in *.
  assert (out1 <> out2) as Hne.
  { intros E. rewrite <- E in Hfresh2. subst σ1.
    rewrite lookup_insert_eq in Hfresh2. discriminate. }
  exists out1, σ1, out2, (<[out2 := sortItems localeCompare l column direction]> σ1).
  repeat split; try assumption.
  - rewrite lookup_insert_ne by congruence. subst σ1. apply lookup_insert_eq.
  - apply lookup_insert_eq.
Qed.

Lemma sortItems_twice_same_sequence_witness :
  exists out1 σ1 out2 σ2,
    sortItemsM codeUnitCompare 0%nat ColYear Descending {[ 0%nat := [leeds; york; bath] ]}
    = Some (out1, σ1) /\
    sortItemsM codeUnitCompare 0%nat ColYear Descending σ1 = Some (out2, σ2) /\
    out1 <> out2 /\
    σ2 !! out1 = Some [leeds; bath; york] /\
    σ2 !! out2 = Some [leeds; bath; york].
Proof.
  exact (sortItems_twice_same_sequence codeUnitCompare
           {[ 0%nat := [leeds; york; bath] ]} 0%nat [leeds; york; bath]
           ColYear Descending (lookup_singleton_eq 0%nat [leeds; york; bath])).
Defined.

(** * Further properties of the sort *)

(** ** More on the sort of arrays *)

Lemma ForallOrdPairs_Permutation {A : Type} (R : A -> A -> Prop) (l l' : list A) :
  (forall a b, R a b -> R b a) ->
  Permutation l l' -> ForallOrdPairs R l -> ForallOrdPairs R l'.
Proof.
  intros Hsym. induction 1 as [|x l l' Hp IH|x y l|l l' l'' _ IH1 _ IH2]; intros H.
  - exact H.
  - inversion H as [|? ? Hx Hl]; subst. constructor; [|now apply IH].
    now apply (Permutation_Forall Hp).
  - inversion H as [|? ? Hy Hl]; subst.
    inversion Hl as [|? ? Hx Hl']; subst.
    apply Forall_cons_1 in Hy as [Hyx Hy].
    repeat constructor; auto.
  - auto.
Qed.

Lemma ForallOrdPairs_impl {A : Type} (R R' : A -> A -> Prop) (l : list A) :
  (forall a b, R a b -> R' a b) -> ForallOrdPairs R l -> ForallOrdPairs R' l.
Proof.
  intros Himpl. induction 1 as [|a l Ha _ IH]; constructor; [|exact IH].
  eapply Forall_impl; [exact Ha|]. auto.
Qed.

Lemma StronglySorted_impl {A : Type} (R R' : A -> A -> Prop) (l : list A) :
  (forall a b, R a b -> R' a b) -> StronglySorted R l -> StronglySorted R' l.
Proof.
  intros Himpl. induction 1 as [|a l _ IH Ha]; constructor; [exact IH|].
  eapply Forall_impl; [exact Ha|]. auto.
Qed.

(** Two lists with the same elements, each strictly ordered, are equal. *)
Lemma strictly_sorted_unique {A : Type} (lt : A -> A -> Prop) (l1 l2 : list A) :
  (forall a b, lt a b -> lt b a -> False) ->
  ForallOrdPairs lt l1 -> ForallOrdPairs lt l2 -> Permutation l1 l2 -> l1 = l2.
Proof.
  intros Hasym H1. revert l2.
  induction H1 as [|a l1 Ha H1 IH]; intros l2 H2 Hp.
  - now apply Permutation_nil in Hp.
  - destruct H2 as [|b l2 Hb H2].
    + symmetry in Hp. now apply Permutation_nil in Hp.
    + assert (a = b) as ->.
      { assert (In a (b :: l2)) as [E|Hin]
          by (eapply Permutation_in; [exact Hp|now left]); [now symmetry|].
        assert (In b (a :: l1)) as [E|Hin']
          by (eapply Permutation_in; [symmetry; exact Hp|now left]); [exact E|].
        rewrite Forall_forall in Ha, Hb. exfalso.
        apply (Hasym a b); [apply Ha|apply Hb]; now apply list_elem_of_In. }
      f_equal. apply IH; [exact H2|]. now apply Permutation_cons_inv in Hp.
Qed.

Section ArraySortMore.

Context {A : Type}.

(** Only the answers on pairs in input order matter. *)
Lemma insertSorted_ext (cmp1 cmp2 : A -> A -> Z) (x : A) (l : list A) :
  Forall (fun y => (cmp1 x y <=? 0) = (cmp2 x y <=? 0)) l ->
  insertSorted cmp1 x l = insertSorted cmp2 x l.
Proof.
  induction 1 as [|y l Hy _ IH]; simpl; [reflexivity|].
  rewrite Hy, IH. reflexivity.
Qed.

Lemma arraySort_ext (cmp1 cmp2 : A -> A -> Z) (l : list A) :
  ForallOrdPairs (fun a b => (cmp1 a b <=? 0) = (cmp2 a b <=? 0)) l ->
  arraySort cmp1 l = arraySort cmp2 l.
Proof.
  induction 1 as [|x l Hx _ IH]; simpl; [reflexivity|].
  rewrite IH. apply insertSorted_ext.
  eapply Permutation_Forall; [apply arraySort_Permutation|exact Hx].
Qed.

(** An array that is already in order is left as it is. *)
Lemma arraySort_Sorted_id (cmp : A -> A -> Z) (l : list A) :
  Sorted (fun a b => cmp a b <= 0) l -> arraySort cmp l = l.
Proof.
  induction 1 as [|x l _ IH Hx]; simpl; [reflexivity|].
  rewrite IH. destruct Hx as [|y l Hxy]; simpl; [reflexivity|].
  destruct (Z.leb_spec (cmp x y) 0); [reflexivity|lia].
Qed.

Lemma arraySort_idempotent (cmp : A -> A -> Z) (l : list A) :
  (forall a b, 0 < cmp a b -> cmp b a <= 0) ->
  arraySort cmp (arraySort cmp l) = arraySort cmp l.
Proof. intros Hanti. now apply arraySort_Sorted_id, arraySort_Sorted. Qed.

Lemma arraySort_StronglySorted (cmp : A -> A -> Z) (l : list A) :
  (forall a b, 0 < cmp a b -> cmp b a <= 0) ->
  (forall a b c, cmp a b <= 0 -> cmp b c <= 0 -> cmp a c <= 0) ->
  StronglySorted (fun a b => cmp a b <= 0) (arraySort cmp l).
Proof.
  intros Hanti Htrans. apply Sorted_StronglySorted.
  - intros a b c. apply Htrans.
  - now apply arraySort_Sorted.
Qed.

(** When the comparator is an order that tells all the elements apart, the
    output does not depend on the order of the input. *)
Lemma arraySort_order_independent (cmp : A -> A -> Z) (l l' : list A) :
  (forall a b, Z.sgn (cmp b a) = - Z.sgn (cmp a b)) ->
  (forall a b c, cmp a b <= 0 -> cmp b c <= 0 -> cmp a c <= 0) ->
  ForallOrdPairs (fun a b => cmp a b <> 0) l ->
  Permutation l l' ->
  arraySort cmp l = arraySort cmp l'.
Proof.
  intros Hanti Htrans Hl Hp.
  set (R := fun a b : A => cmp a b <> 0).
  assert (forall a b, R a b -> R b a) as Rsym.
  { unfold R. intros a b. specialize (Hanti a b). lia. }
  assert (forall a b c, R a b -> R b c -> R a c ->
                        cmp a b < 0 -> cmp b c < 0 -> cmp a c < 0) as Hstrict.
  { unfold R. intros a b c _ _ Hac Hab Hbc.
    specialize (Htrans a b c). lia. }
  assert (forall l0, ForallOrdPairs R l0 ->
                     ForallOrdPairs (fun a b => R a b /\ cmp a b < 0)
                       (arraySort cmp l0)) as Hsorted.
  { intros l0 Hl0. apply arraySort_before; auto.
    intros a b _. specialize (Hanti a b). lia. }
  apply (strictly_sorted_unique (fun a b => R a b /\ cmp a b < 0)).
  - intros a b [_ Hab] [_ Hba]. specialize (Hanti a b). lia.
  - now apply Hsorted.
  - apply Hsorted. now apply (ForallOrdPairs_Permutation R l l').
  - rewrite <- (arraySort_Permutation cmp l), <- (arraySort_Permutation cmp l').
    exact Hp.
Qed.

End ArraySortMore.

(** ** The inline comparator *)

Lemma codeUnitCompare_eq (s t : string) : codeUnitCompare s t = 0 -> s = t.
Proof.
  unfold codeUnitCompare. destruct (String.compare s t) eqn:E; try discriminate.
  intros _. now apply String.compare_eq_iff.
Qed.

Lemma codeUnitCompare_le_trans (s t u : string) :
  codeUnitCompare s t <= 0 -> codeUnitCompare t u <= 0 -> codeUnitCompare s u <= 0.
Proof.
  intros Hst Htu.
  destruct (Z.eq_dec (codeUnitCompare s t) 0) as [E|E];
    [apply codeUnitCompare_eq in E; now subst|].
  destruct (Z.eq_dec (codeUnitCompare t u) 0) as [E'|E'];
    [apply codeUnitCompare_eq in E'; now subst|].
  pose proof (codeUnitCompare_trans s t u). lia.
Qed.

(** [<] and [>] on two strings give the sign of the order of character codes. *)
Lemma valueCompare_string (s t : string) :
  valueCompare (VString s) (VString t) = codeUnitCompare s t.
Proof.
  unfold valueCompare, codeUnitCompare, jsLt, String.ltb.
  rewrite (String.compare_antisym t s).
  now destruct (String.compare s t).
Qed.

Lemma valueCompare_number (m n : Z) :
  valueCompare (VNumber m) (VNumber n) = Z.sgn (m - n).
Proof. unfold valueCompare, jsLt. case_ltb; lia. Qed.

Lemma inlineCompare_valueCompare (column : Column) (direction : SortDirection)
    (a b : LocationData) :
  inlineCompare column direction a b =
  match direction with
  | Ascending => valueCompare (field a column) (field b column)
  | Descending => - valueCompare (field a column) (field b column)
  end.
Proof. reflexivity. Qed.

Ltac by_value column a b :=
  rewrite ?inlineCompare_valueCompare; destruct column; simpl;
  rewrite ?valueCompare_string, ?valueCompare_number.

Lemma valueCompare_antisym (column : Column) (a b : LocationData) :
  valueCompare (field b column) (field a column)
  = - valueCompare (field a column) (field b column).
Proof.
  by_value column a b; try lia.
  - pose proof (codeUnitCompare_antisym (id a) (id b)) as H.
    unfold codeUnitCompare in *.
    destruct (String.compare (id a) (id b)), (String.compare (id b) (id a));
      simpl in H; lia.
  - pose proof (codeUnitCompare_antisym (location a) (location b)) as H.
    unfold codeUnitCompare in *.
    destruct (String.compare (location a) (location b)),
             (String.compare (location b) (location a)); simpl in H; lia.
Qed.

Lemma valueCompare_le_trans (column : Column) (a b c : LocationData) :
  valueCompare (field a column) (field b column) <= 0 ->
  valueCompare (field b column) (field c column) <= 0 ->
  valueCompare (field a column) (field c column) <= 0.
Proof.
  by_value column a b; try lia; apply codeUnitCompare_le_trans.
Qed.

Lemma valueCompare_zero (column : Column) (a b : LocationData) :
  valueCompare (field a column) (field b column) = 0 <->
  field a column = field b column.
Proof.
  by_value column a b; split; intros H;
    try (apply codeUnitCompare_eq in H; now rewrite H);
    try (injection H as ->; apply codeUnitCompare_refl);
    try (f_equal; lia); try (injection H as ->; lia).
Qed.

Lemma inlineCompare_antisym (column : Column) (direction : SortDirection)
    (a b : LocationData) :
  inlineCompare column direction b a = - inlineCompare column direction a b.
Proof.
  rewrite !inlineCompare_valueCompare, (valueCompare_antisym column a b).
  destruct direction; lia.
Qed.

Lemma inlineCompare_le_trans (column : Column) (direction : SortDirection)
    (a b c : LocationData) :
  inlineCompare column direction a b <= 0 ->
  inlineCompare column direction b c <= 0 ->
  inlineCompare column direction a c <= 0.
Proof.
  rewrite !inlineCompare_valueCompare. destruct direction.
  - apply valueCompare_le_trans.
  - intros Hab Hbc.
    pose proof (valueCompare_antisym column a b).
    pose proof (valueCompare_antisym column b c).
    pose proof (valueCompare_antisym column a c).
    pose proof (valueCompare_le_trans column c b a). lia.
Qed.

Lemma ForallOrdPairs_all {A : Type} (R : A -> A -> Prop) (l : list A) :
  (forall a b, R a b) -> ForallOrdPairs R l.
Proof.
  intros HR. induction l as [|a l IH]; constructor; [|exact IH].
  apply Forall_forall. auto.
Qed.

Lemma valueCompare_le_jsLt (column : Column) (a b : LocationData) :
  valueCompare (field a column) (field b column) <= 0 <->
  jsLt (field b column) (field a column) = false.
Proof.
  pose proof (valueCompare_antisym column a b) as H. unfold valueCompare in *.
  destruct (jsLt (field a column) (field b column)),
           (jsLt (field b column) (field a column)); split; intros; try lia;
    try reflexivity; discriminate.
Qed.

(** ** The sequence shown by the table *)

(** X1. In the sequence the table shows, no row comes before a row that has a
    smaller value in the sort column (ascending), or a larger one
    (descending). *)
Theorem sortedItems_ordered (items : list LocationData)
    (sortDescriptor : SortDescriptor) :
  StronglySorted
    (fun a b =>
       match direction sortDescriptor with
       | Ascending =>
           jsLt (field b (column sortDescriptor)) (field a (column sortDescriptor))
           = false
       | Descending =>
           jsLt (field a (column sortDescriptor)) (field b (column sortDescriptor))
           = false
       end)
    (sortedItems items sortDescriptor).
Proof.
  unfold sortedItems. destruct sortDescriptor as [c d]. simpl.
  apply (StronglySorted_impl (fun a b => inlineCompare c d a b <= 0)).
  - intros a b. rewrite inlineCompare_valueCompare. destruct d.
    + apply valueCompare_le_jsLt.
    + intros H. apply valueCompare_le_jsLt.
      rewrite (valueCompare_antisym c a b). lia.
  - apply arraySort_StronglySorted.
    + intros a b. rewrite (inlineCompare_antisym c d a b). lia.
    + apply inlineCompare_le_trans.
Qed.

(** X2. The table's sort is stable: the rows that have the same value in the
    sort column as a given row appear in their input order. *)
Theorem sortedItems_stable (items : list LocationData)
    (sortDescriptor : SortDescriptor) (x : LocationData) :
  filter (fun y => field y (column sortDescriptor) = field x (column sortDescriptor))
    (sortedItems items sortDescriptor)
  = filter (fun y => field y (column sortDescriptor) = field x (column sortDescriptor))
      items.
Proof.
  unfold sortedItems.
  apply (arraySort_filter _
           (fun y => field y (column sortDescriptor) = field x (column sortDescriptor))).
  intros a b Ha Hb. rewrite inlineCompare_valueCompare.
  rewrite (proj2 (valueCompare_zero (column sortDescriptor) a b)) by congruence.
  destruct (direction sortDescriptor); lia.
Qed.

(** X3. Sorting the sequence shown once more, by the same column and
    direction, changes nothing. *)
Theorem sortedItems_idempotent (items : list LocationData)
    (sortDescriptor : SortDescriptor) :
  sortedItems (sortedItems items sortDescriptor) sortDescriptor
  = sortedItems items sortDescriptor.
Proof.
  unfold sortedItems. apply arraySort_idempotent.
  intros a b. rewrite (inlineCompare_antisym _ _ a b). lia.
Qed.

(** X4. When the rows have pairwise different values in the sort column, the
    table sorted descending is the reverse of the table sorted ascending. *)
Theorem sortedItems_descending_reverses_ascending (items : list LocationData)
    (c : Column) :
  distinctValues c items ->
  sortedItems items {| column := c; direction := Descending |}
  = rev (sortedItems items {| column := c; direction := Ascending |}).
Proof.
  intros Hd. unfold sortedItems, distinctValues in *. simpl.
  apply arraySort_down_rev with (R := fun a b => field a c <> field b c);
    try assumption.
  - intros a b H E. now apply H.
  - intros a b H. rewrite inlineCompare_valueCompare, valueCompare_zero. exact H.
  - reflexivity.
  - intros a b _. rewrite (inlineCompare_antisym c Ascending a b). lia.
  - intros a b c' _ _ Hac Hab Hbc.
    pose proof (inlineCompare_le_trans c Ascending a b c').
    assert (inlineCompare c Ascending a c' <> 0)
      by (rewrite inlineCompare_valueCompare, valueCompare_zero; exact Hac).
    lia.
Qed.

Lemma sortedItems_descending_reverses_ascending_witness :
  sortedItems [leeds; york; bath] {| column := ColLocation; direction := Descending |}
  = rev [bath; leeds; york].
Proof.
  rewrite (sortedItems_descending_reverses_ascending [leeds; york; bath] ColLocation).
  - reflexivity.
  - repeat constructor; discriminate.
Defined.

(** X5. On the string columns the table's comparator is the comparator of
    [sortItems] run with the order of character codes as collation: the two
    sorts then give the same sequence. *)
Theorem sortedItems_is_sortItems_with_code_order (items : list LocationData)
    (c : Column) (d : SortDirection) :
  numberColumn c = false ->
  sortedItems items {| column := c; direction := d |}
  = sortItems codeUnitCompare items c d.
Proof.
  intros Hc. unfold sortedItems, sortItems. simpl.
  apply arraySort_ext, ForallOrdPairs_all. intros a b.
  rewrite inlineCompare_valueCompare. unfold compareValues.
  destruct c; try discriminate Hc; simpl; now rewrite valueCompare_string.
Qed.

Lemma sortedItems_is_sortItems_with_code_order_witness :
  sortItems codeUnitCompare [leeds; york; bath] ColLocation Ascending
  = [bath; leeds; york].
Proof.
  rewrite <- (sortedItems_is_sortItems_with_code_order [leeds; york; bath]
                ColLocation Ascending eq_refl).
  reflexivity.
Defined.

(** ** The comparator of [sortItems] is an order *)

Lemma compareValues_number (localeCompare : string -> string -> Z)
    (c : Column) (d : SortDirection) (a b : LocationData) :
  numberColumn c = true ->
  compareValues localeCompare c d a b =
  if valueCompare (field a c) (field b c) =? 0 then tieBreak localeCompare a b
  else match d with
       | Ascending => valueCompare (field a c) (field b c)
       | Descending => - valueCompare (field a c) (field b c)
       end.
Proof.
  intros Hc. unfold compareValues, tieBreak, valueCompare.
  destruct c; try discriminate Hc; simpl; case_ltb; simpl; try lia;
    now destruct d.
Qed.

Lemma compareValues_string (localeCompare : string -> string -> Z)
    (c : Column) (d : SortDirection) (a b : LocationData) :
  numberColumn c = false ->
  exists s t, field a c = VString s /\ field b c = VString t /\
    compareValues localeCompare c d a b =
    match d with
    | Ascending => localeCompare s t
    | Descending => - localeCompare s t
    end.
Proof.
  intros Hc. destruct c; try discriminate Hc; eexists _, _; repeat split.
Qed.

Section Order.

Variable localeCompare : string -> string -> Z.

Hypothesis localeCompare_antisym :
  forall s t, Z.sgn (localeCompare t s) = - Z.sgn (localeCompare s t).

Lemma tieBreak_antisym (a b : LocationData) :
  Z.sgn (tieBreak localeCompare b a) = - Z.sgn (tieBreak localeCompare a b).
Proof.
  unfold tieBreak.
  pose proof (localeCompare_antisym (location a) (location b)).
  destruct (Z.eqb_spec (localeCompare (location a) (location b)) 0),
           (Z.eqb_spec (localeCompare (location b) (location a)) 0),
           (Z.eqb_spec (year a) (year b)), (Z.eqb_spec (year b) (year a));
    simpl; lia.
Qed.

Lemma compareValues_sgn_antisym (c : Column) (d : SortDirection) (a b : LocationData) :
  Z.sgn (compareValues localeCompare c d b a)
  = - Z.sgn (compareValues localeCompare c d a b).
Proof.
  destruct (numberColumn c) eqn:Hc.
  - rewrite !compareValues_number by exact Hc.
    rewrite (valueCompare_antisym c a b).
    pose proof (tieBreak_antisym a b).
    destruct (Z.eqb_spec (valueCompare (field a c) (field b c)) 0),
             (Z.eqb_spec (- valueCompare (field a c) (field b c)) 0);
      try lia; destruct d; lia.
  - destruct c; try discriminate Hc; unfold compareValues; simpl;
      [pose proof (localeCompare_antisym (id a) (id b))
      |pose proof (localeCompare_antisym (location a) (location b))];
      destruct d; lia.
Qed.

Hypothesis localeCompare_le_trans :
  forall s t u, localeCompare s t <= 0 -> localeCompare t u <= 0 ->
                localeCompare s u <= 0.

Lemma tieBreak_le (a b : LocationData) :
  tieBreak localeCompare a b <= 0 <->
  localeCompare (location a) (location b) < 0 \/
  (localeCompare (location a) (location b) = 0 /\
   (year b < year a \/ (year a = year b /\ month b <= month a))).
Proof.
  unfold tieBreak.
  destruct (Z.eqb_spec (localeCompare (location a) (location b)) 0),
           (Z.eqb_spec (year a) (year b)); simpl; lia.
Qed.

Lemma tieBreak_le_trans (a b c : LocationData) :
  tieBreak localeCompare a b <= 0 -> tieBreak localeCompare b c <= 0 ->
  tieBreak localeCompare a c <= 0.
Proof.
  rewrite !tieBreak_le.
  pose proof (localeCompare_antisym (location a) (location b)).
  pose proof (localeCompare_antisym (location b) (location c)).
  pose proof (localeCompare_antisym (location a) (location c)).
  pose proof (localeCompare_le_trans (location a) (location b) (location c)).
  pose proof (localeCompare_le_trans (location b) (location c) (location a)).
  pose proof (localeCompare_le_trans (location c) (location a) (location b)).
  pose proof (localeCompare_le_trans (location c) (location b) (location a)).
  pose proof (localeCompare_le_trans (location b) (location a) (location c)).
  pose proof (localeCompare_le_trans (location a) (location c) (location b)).
  lia.
Qed.

Lemma compareValues_le_trans (c : Column) (d : SortDirection) (x y z : LocationData) :
  compareValues localeCompare c d x y <= 0 ->
  compareValues localeCompare c d y z <= 0 ->
  compareValues localeCompare c d x z <= 0.
Proof.
  destruct (numberColumn c) eqn:Hc.
  - rewrite !compareValues_number by exact Hc.
    pose proof (tieBreak_le_trans x y z) as Htie.
    destruct c; try discriminate Hc; simpl; rewrite !valueCompare_number;
      repeat match goal with
             | |- context [Z.eqb ?e 0] => destruct (Z.eqb_spec e 0)
             end;
      destruct d; lia.
  - destruct c; try discriminate Hc; unfold compareValues; simpl; destruct d;
      try apply localeCompare_le_trans; intros Hxy Hyz.
    + pose proof (localeCompare_antisym (id x) (id y)).
      pose proof (localeCompare_antisym (id y) (id z)).
      pose proof (localeCompare_antisym (id x) (id z)).
      pose proof (localeCompare_le_trans (id z) (id y) (id x)). lia.
    + pose proof (localeCompare_antisym (location x) (location y)).
      pose proof (localeCompare_antisym (location y) (location z)).
      pose proof (localeCompare_antisym (location x) (location z)).
      pose proof (localeCompare_le_trans (location z) (location y) (location x)). lia.
Qed.

End Order.

Lemma primaryTie_number (localeCompare : string -> string -> Z) (c : Column)
    (a b : LocationData) :
  numberColumn c = true ->
  primaryTie localeCompare c a b <-> valueCompare (field a c) (field b c) = 0.
Proof.
  intros Hc. unfold primaryTie, valueCompare.
  destruct c; try discriminate Hc; simpl; case_ltb; split; intros Htie;
    try lia; try (destruct Htie; discriminate); now split.
Qed.

(** ** The sequence [sortItems] gives *)

(** X6. On a number column the comparator of [sortItems] answers 0 only when
    no key tells the two records apart: same value in the column, locations
    that tie in the collation, same year and same month. *)
Theorem compareValues_zero_iff_full_tie (localeCompare : string -> string -> Z)
    (c : Column) (d : SortDirection) (a b : LocationData) :
  numberColumn c = true ->
  compareValues localeCompare c d a b = 0 <->
  field a c = field b c /\ localeCompare (location a) (location b) = 0 /\
  year a = year b /\ month a = month b.
Proof.
  intros Hc. rewrite compareValues_number by exact Hc.
  rewrite <- valueCompare_zero. unfold tieBreak.
  destruct (Z.eqb_spec (valueCompare (field a c) (field b c)) 0),
           (Z.eqb_spec (localeCompare (location a) (location b)) 0),
           (Z.eqb_spec (year a) (year b)); simpl; destruct d; lia.
Qed.

Lemma compareValues_zero_iff_full_tie_witness :
  compareValues codeUnitCompare ColTotal Descending x2020 x2021 <> 0.
Proof.
  intros H.
  apply (compareValues_zero_iff_full_tie codeUnitCompare ColTotal Descending
           x2020 x2021 eq_refl) in H.
  destruct H as (_ & _ & Hyear & _). discriminate Hyear.
Defined.

(** X7. With a collation that is antisymmetric and transitive, the comparator
    of [sortItems] is a consistent comparator on every column and in both
    directions: swapping the arguments swaps the sign, and "not after" is
    transitive. *)
Theorem compareValues_consistent (localeCompare : string -> string -> Z)
    (c : Column) (d : SortDirection) :
  (forall s t, Z.sgn (localeCompare t s) = - Z.sgn (localeCompare s t)) ->
  (forall s t u, localeCompare s t <= 0 -> localeCompare t u <= 0 ->
                 localeCompare s u <= 0) ->
  (forall a b, Z.sgn (compareValues localeCompare c d b a)
               = - Z.sgn (compareValues localeCompare c d a b)) /\
  (forall x y z, compareValues localeCompare c d x y <= 0 ->
                 compareValues localeCompare c d y z <= 0 ->
                 compareValues localeCompare c d x z <= 0).
Proof.
  intros Hanti Htrans. split.
  - intros a b. now apply compareValues_sgn_antisym.
  - intros x y z. now apply compareValues_le_trans.
Qed.

Lemma compareValues_consistent_witness :
  Z.sgn (compareValues codeUnitCompare ColTotal Ascending york leeds)
  = - Z.sgn (compareValues codeUnitCompare ColTotal Ascending leeds york).
Proof.
  apply (compareValues_consistent codeUnitCompare ColTotal Ascending
           codeUnitCompare_antisym codeUnitCompare_le_trans).
Defined.

(** X8. With such a collation, the output of [sortItems] is in order: every
    record is "not after" every record that follows it, for the comparator. *)
Theorem sortItems_ordered (localeCompare : string -> string -> Z)
    (items : list LocationData) (c : Column) (d : SortDirection) :
  (forall s t, Z.sgn (localeCompare t s) = - Z.sgn (localeCompare s t)) ->
  (forall s t u, localeCompare s t <= 0 -> localeCompare t u <= 0 ->
                 localeCompare s u <= 0) ->
  StronglySorted (fun a b => compareValues localeCompare c d a b <= 0)
    (sortItems localeCompare items c d).
Proof.
  intros Hanti Htrans. unfold sortItems. apply arraySort_StronglySorted.
  - intros a b. pose proof (compareValues_sgn_antisym localeCompare Hanti c d a b).
    lia.
  - intros x y z. now apply compareValues_le_trans.
Qed.

Lemma sortItems_ordered_witness :
  StronglySorted (fun a b => compareValues codeUnitCompare ColYear Descending a b <= 0)
    [leeds; bath; york].
Proof.
  exact (sortItems_ordered codeUnitCompare [york; leeds; bath] ColYear Descending
           codeUnitCompare_antisym codeUnitCompare_le_trans).
Defined.

(** X9. With an antisymmetric collation, sorting the output of [sortItems]
    again by the same column and direction changes nothing. *)
Theorem sortItems_idempotent (localeCompare : string -> string -> Z)
    (items : list LocationData) (c : Column) (d : SortDirection) :
  (forall s t, Z.sgn (localeCompare t s) = - Z.sgn (localeCompare s t)) ->
  sortItems localeCompare (sortItems localeCompare items c d) c d
  = sortItems localeCompare items c d.
Proof.
  intros Hanti. unfold sortItems. apply arraySort_idempotent.
  intros a b. pose proof (compareValues_sgn_antisym localeCompare Hanti c d a b).
  lia.
Qed.

Lemma sortItems_idempotent_witness :
  sortItems codeUnitCompare [york; bath; leeds] ColTotal Ascending
  = [york; bath; leeds].
Proof.
  exact (sortItems_idempotent codeUnitCompare [leeds; york; bath] ColTotal Ascending
           codeUnitCompare_antisym).
Defined.

(** X10. When the comparator tells any two records of the input apart, the
    output of [sortItems] does not depend on the order of the input: two
    arrangements of the same records are sorted to the same sequence. *)
Theorem sortItems_order_independent (localeCompare : string -> string -> Z)
    (items items' : list LocationData) (c : Column) (d : SortDirection) :
  (forall s t, Z.sgn (localeCompare t s) = - Z.sgn (localeCompare s t)) ->
  (forall s t u, localeCompare s t <= 0 -> localeCompare t u <= 0 ->
                 localeCompare s u <= 0) ->
  separated localeCompare c d items ->
  Permutation items items' ->
  sortItems localeCompare items c d = sortItems localeCompare items' c d.
Proof.
  intros Hanti Htrans Hsep Hp. unfold sortItems, separated in *.
  apply arraySort_order_independent; try assumption.
  - intros a b. now apply compareValues_sgn_antisym.
  - intros x y z. now apply compareValues_le_trans.
Qed.

Lemma sortItems_order_independent_witness :
  sortItems codeUnitCompare [x2020; x2021; leeds] ColTotal Ascending
  = sortItems codeUnitCompare [leeds; x2021; x2020] ColTotal Ascending.
Proof.
  apply (sortItems_order_independent codeUnitCompare
           [x2020; x2021; leeds] [leeds; x2021; x2020] ColTotal Ascending
           codeUnitCompare_antisym codeUnitCompare_le_trans).
  - repeat constructor; vm_compute; discriminate.
  - apply perm_trans with [x2021; x2020; leeds]; [apply perm_swap|].
    apply perm_trans with [x2021; leeds; x2020]; [apply perm_skip, perm_swap|].
    apply perm_swap.
Defined.

(** X11. On a number column with no two records that tie in it, the table
    shows exactly the sequence [sortItems] gives, in both directions and
    whatever the collation. *)
Theorem sortedItems_is_sortItems_without_ties (localeCompare : string -> string -> Z)
    (items : list LocationData) (c : Column) (d : SortDirection) :
  numberColumn c = true ->
  noTies localeCompare c items ->
  sortedItems items {| column := c; direction := d |}
  = sortItems localeCompare items c d.
Proof.
  intros Hc Hties. unfold sortedItems, sortItems, noTies in *. simpl.
  apply arraySort_ext.
  eapply ForallOrdPairs_impl; [|exact Hties]. intros a b Hab. simpl in Hab.
  rewrite primaryTie_number in Hab by exact Hc.
  rewrite compareValues_number by exact Hc.
  rewrite inlineCompare_valueCompare.
  destruct (Z.eqb_spec (valueCompare (field a c) (field b c)) 0);
    [contradiction|reflexivity].
Qed.

Lemma sortedItems_is_sortItems_without_ties_witness :
  sortItems codeUnitCompare [leeds; york; bath] ColMonth Descending
  = [bath; york; leeds].
Proof.
  rewrite <- (sortedItems_is_sortItems_without_ties codeUnitCompare
                [leeds; york; bath] ColMonth Descending eq_refl).
  - reflexivity.
  - repeat constructor; vm_compute; intros [H1 H2]; discriminate.
Defined.

(** X12. On a number column in which all the records tie, [sortItems] orders
    the records by the fallback chain alone (location by collation, then the
    later year first, then the later month first), whatever the direction;
    so ascending and descending give the same sequence. *)
Theorem sortItems_direction_irrelevant_on_ties (localeCompare : string -> string -> Z)
    (items : list LocationData) (c : Column) :
  numberColumn c = true ->
  allTie localeCompare c items ->
  (forall d, sortItems localeCompare items c d
             = arraySort (tieBreak localeCompare) items) /\
  sortItems localeCompare items c Ascending
  = sortItems localeCompare items c Descending.
Proof.
  intros Hc Hties.
  assert (forall d, sortItems localeCompare items c d
                    = arraySort (tieBreak localeCompare) items) as Hchain.
  { intros d. unfold sortItems, allTie in *. apply arraySort_ext.
    eapply ForallOrdPairs_impl; [|exact Hties]. intros a b Hab. simpl in Hab.
    rewrite primaryTie_number in Hab by exact Hc.
    rewrite compareValues_number by exact Hc. now rewrite Hab. }
  split; [exact Hchain|]. now rewrite !Hchain.
Qed.

Lemma sortItems_direction_irrelevant_on_ties_witness :
  sortItems codeUnitCompare [x2020; x2021] ColTotal Descending = [x2021; x2020] /\
  sortItems codeUnitCompare [x2020; x2021] ColTotal Ascending = [x2021; x2020].
Proof.
  destruct (sortItems_direction_irrelevant_on_ties codeUnitCompare
              [x2020; x2021] ColTotal eq_refl
              ltac:(repeat constructor; vm_compute; split; reflexivity))
    as [Hchain _].
  rewrite !Hchain. split; reflexivity.
Defined.

(** X15. When the rows have pairwise different values in the sort column, the
    sequence the table shows does not depend on the order in which the rows
    were given. *)
Theorem sortedItems_order_independent (items items' : list LocationData)
    (sortDescriptor : SortDescriptor) :
  distinctValues (column sortDescriptor) items ->
  Permutation items items' ->
  sortedItems items sortDescriptor = sortedItems items' sortDescriptor.
Proof.
  intros Hd Hp. unfold sortedItems, distinctValues in *.
  apply arraySort_order_independent; try assumption.
  - intros a b. rewrite (inlineCompare_antisym _ _ a b). lia.
  - apply inlineCompare_le_trans.
  - eapply ForallOrdPairs_impl; [|exact Hd]. intros a b Hab. simpl in Hab.
    rewrite inlineCompare_valueCompare.
    rewrite <- valueCompare_zero in Hab.
    destruct (direction sortDescriptor); lia.
Qed.

Lemma sortedItems_order_independent_witness :
  sortedItems [leeds; york; bath] {| column := ColYear; direction := Ascending |}
  = sortedItems [york; leeds; bath] {| column := ColYear; direction := Ascending |}.
Proof.
  apply (sortedItems_order_independent [leeds; york; bath] [york; leeds; bath]
           {| column := ColYear; direction := Ascending |}).
  - repeat constructor; discriminate.
  - apply perm_swap.
Defined.

(** ** From the raw values to the rows shown *)

(** X13. Every row the application shows carries the id built from its own
    location, month and year, and the rows shown have pairwise distinct ids
    whenever the normalised records have. *)
Theorem appSortedItems_ids (values : list RawLocationData)
    (sortDescriptor : SortDescriptor) :
  Forall (fun r => id r = recordId r) (appSortedItems values sortDescriptor) /\
  (List.NoDup (map id (mapLocationResult values)) ->
   List.NoDup (map id (appSortedItems values sortDescriptor))).
Proof.
  unfold appSortedItems, sortedItems. split.
  - eapply Permutation_Forall; [apply arraySort_Permutation|].
    unfold mapLocationResult. apply Forall_forall. intros r Hr.
    apply list_elem_of_In, in_map_iff in Hr as (raw & <- & _). reflexivity.
  - apply Permutation_NoDup, Permutation_map, arraySort_Permutation.
Qed.

Lemma appSortedItems_ids_witness :
  List.NoDup (map id (appSortedItems [row "York" 7 2019 10; row "Leeds" 3 2021 30]
                        {| column := ColTotal; direction := Descending |})).
Proof.
  apply (proj2 (appSortedItems_ids [row "York" 7 2019 10; row "Leeds" 3 2021 30]
                  {| column := ColTotal; direction := Descending |})).
  repeat (apply List.NoDup_cons_iff; split;
          [simpl; intros H; repeat destruct H as [H|H]; try discriminate H;
           try contradiction|]).
  constructor.
Defined.

(** ** Renderings in sequence *)

Lemma bind_run {A B : Type} (m : M A) (f : A -> M B) (σ : store) :
  (m ≫= f) σ = match m σ with
               | Some (x, σ') => f x σ'
               | None => None
               end.
Proof. reflexivity. Qed.

Lemma renderAll_run (sortDescriptors : list SortDescriptor) :
  forall (cell : MemoCell) (σ : store) (props_items : nat) (l : list LocationData),
    σ !! props_items = Some l ->
    cellHolds σ props_items l cell ->
    exists outs σ',
      renderAll cell props_items sortDescriptors σ = Some (outs, σ') /\
      σ' !! props_items = Some l /\
      Forall2 (fun sortDescriptor out =>
                 σ' !! out = Some (sortedItems l sortDescriptor) /\
                 (σ !! out = None \/ exists sd0, cellPrev cell = Some (sd0, out)))
              sortDescriptors outs /\
      (forall r, is_Some (σ !! r) -> σ' !! r = σ !! r) /\
      chained (cellPrev cell) sortDescriptors outs.
Proof.
  induction sortDescriptors as [|sd rest IH]; intros cell σ p l Hl Hcell.
  - exists [], σ. repeat split; auto.
  - assert ((forall sd0 out0, cellPrev cell = Some (sd0, out0) ->
                                sd0 <> sd /\ is_Some (σ !! out0)) ->
              useMemoSortedItems cell p sd σ
              = (out ← sortedItemsM p sd; mret (out, Some (p, sd, out))) σ ->
              exists outs σ',
                renderAll cell p (sd :: rest) σ = Some (outs, σ') /\
                σ' !! p = Some l /\
                Forall2 (fun sortDescriptor out =>
                           σ' !! out = Some (sortedItems l sortDescriptor) /\
                           (σ !! out = None \/
                            exists sd0, cellPrev cell = Some (sd0, out)))
                        (sd :: rest) outs /\
                (forall r, is_Some (σ !! r) -> σ' !! r = σ !! r) /\
                chained (cellPrev cell) (sd :: rest) outs) as Hcompute.
    { intros Hprev Hmemo.
      destruct (sortedItemsM_run σ p l sd Hl) as (Hrun & Hne & Hfresh).
      set (out := fresh (dom σ)) in *.
      set (σ1 := <[out := sortedItems l sd]> σ) in *.
      assert (σ1 !! p = Some l) as Hl1
        by (subst σ1; now rewrite lookup_insert_ne).
      assert (cellHolds σ1 p l (Some (p, sd, out))) as Hcell1
        by (split; [reflexivity|subst σ1; apply lookup_insert_eq]).
      destruct (IH _ σ1 p l Hl1 Hcell1)
        as (outs & σ' & Hrest & Hl' & Houts & Hframe & Hchain).
      exists (out :: outs), σ'. repeat split.
      - simpl. rewrite bind_run, Hmemo, bind_run, Hrun. simpl.
        rewrite bind_run, Hrest. reflexivity.
      - exact Hl'.
      - constructor.
        + split; [|now left]. rewrite Hframe; subst σ1.
          * apply lookup_insert_eq.
          * rewrite lookup_insert_eq. eauto.
        + eapply Forall2_impl; [exact Houts|]. intros sd' out' [Hsorted Hnew].
          split; [exact Hsorted|]. left. subst σ1.
          destruct Hnew as [Hnew|(sd0 & [= _ <-])]; [|exact Hfresh].
          destruct (decide (out = out')) as [<-|Hdiff]; [exact Hfresh|].
          now rewrite lookup_insert_ne in Hnew.
      - intros r Hr.
        assert (r <> out) as Hr'
          by (intros ->; rewrite Hfresh in Hr; now destruct Hr).
        rewrite Hframe; subst σ1; rewrite lookup_insert_ne by congruence; auto.
      - simpl. destruct (cellPrev cell) as [[sd0 out0]|] eqn:Hp; [|exact I].
        destruct (Hprev sd0 out0 eq_refl) as [Hsd Hout0].
        split; intros E; [contradiction|]. subst out0.
        rewrite Hfresh in Hout0. now destruct Hout0.
      - exact Hchain. }
    destruct cell as [[[items0 sd0] out0]|].
    + destruct (decide (items0 = p /\ sd0 = sd)) as [[-> ->]|Hdiff] eqn:Hdec.
      * destruct Hcell as [_ Hout0].
        destruct (IH (Some (p, sd, out0)) σ p l Hl (conj eq_refl Hout0))
          as (outs & σ' & Hrest & Hl' & Houts & Hframe & Hchain).
        exists (out0 :: outs), σ'. repeat split; try assumption.
        -- simpl. rewrite bind_run. simpl. rewrite Hdec. simpl.
           rewrite bind_run, Hrest. reflexivity.
        -- constructor; [|exact Houts]. split.
           ++ rewrite Hframe; [exact Hout0|eauto].
           ++ right. now exists sd.
      * destruct Hcell as [-> Hout0]. apply Hcompute.
        -- intros sd1 out1 [= <- <-]. split; [|eauto].
           intros ->. apply Hdiff. now split.
        -- simpl. now rewrite Hdec.
    + apply Hcompute; [discriminate|reflexivity].
Qed.

Lemma chained_lookup (sortDescriptors : list SortDescriptor) :
  forall (prev : option (SortDescriptor * nat)) (outs : list nat),
    chained prev sortDescriptors outs ->
    forall (i : nat) sd sd' out out',
      sortDescriptors !! i = Some sd -> sortDescriptors !! S i = Some sd' ->
      outs !! i = Some out -> outs !! S i = Some out' ->
      (sd = sd' <-> out = out').
Proof.
  induction sortDescriptors as [|sd0 rest IH]; intros prev [|o0 outs] Hc;
    try contradiction; intros i sd sd' out out' Hi Hi' Ho Ho'; [discriminate|].
  destruct Hc as [_ Hc]. destruct i as [|i].
  - simpl in *. injection Hi as <-. injection Ho as <-.
    destruct rest as [|sd1 rest], outs as [|o1 outs]; try discriminate;
      try contradiction.
    simpl in *. injection Hi' as <-. injection Ho' as <-. now destruct Hc.
  - simpl in Hi, Hi', Ho, Ho'. now apply (IH _ _ Hc i sd sd' out out').
Qed.

(** X14. Starting from the first rendering, however many times the component
    is rendered with the same [props.items] and whatever sort descriptors:
    [props.items] and every array that was in the store keep their contents;
    the array each rendering gets was not in the store before and holds
    [props.items] sorted by that rendering's descriptor alone; and from one
    rendering to the next the array is the same one exactly when the
    descriptor has not changed. *)
Theorem renderAll_memoized_sorts_of_props_items (σ : store) (props_items : nat)
    (l : list LocationData) (sortDescriptors : list SortDescriptor) :
  σ !! props_items = Some l ->
  exists outs σ',
    renderAll None props_items sortDescriptors σ = Some (outs, σ') /\
    σ' !! props_items = Some l /\
    Forall2 (fun sortDescriptor out =>
               σ !! out = None /\
               σ' !! out = Some (sortedItems l sortDescriptor))
            sortDescriptors outs /\
    (forall r, is_Some (σ !! r) -> σ' !! r = σ !! r) /\
    (forall (i : nat) sd sd' out out',
        sortDescriptors !! i = Some sd -> sortDescriptors !! S i = Some sd' ->
        outs !! i = Some out -> outs !! S i = Some out' ->
        (sd = sd' <-> out = out')).
Proof.
  intros Hl.
  destruct (renderAll_run sortDescriptors None σ props_items l Hl I)
    as (outs & σ' & Hrun & Hl' & Houts & Hframe & Hchain).
  exists outs, σ'. repeat split; try assumption.
  - eapply Forall2_impl; [exact Houts|]. intros sd out [Hsorted Hnew].
    split; [|exact Hsorted]. destruct Hnew as [Hnew|(sd0 & Hsd0)];
      [exact Hnew|discriminate].
  - now apply (chained_lookup sortDescriptors None outs Hchain i sd sd' out out').
  - now apply (chained_lookup sortDescriptors None outs Hchain i sd sd' out out').
Qed.

Lemma renderAll_memoized_sorts_of_props_items_witness :
  exists out1 out2 out3 σ',
    renderAll None 0%nat
      [ {| column := ColTotal; direction := Ascending |};
        {| column := ColTotal; direction := Ascending |};
        {| column := ColYear; direction := Descending |} ]
      {[ 0%nat := [leeds; york; bath] ]} = Some ([out1; out2; out3], σ') /\
    out1 = out2 /\ out2 <> out3 /\
    σ' !! 0%nat = Some [leeds; york; bath] /\
    σ' !! out2 = Some [york; bath; leeds] /\
    σ' !! out3 = Some [leeds; bath; york].
Proof.
  destruct (renderAll_memoized_sorts_of_props_items
              {[ 0%nat := [leeds; york; bath] ]} 0%nat [leeds; york; bath]
              [ {| column := ColTotal; direction := Ascending |};
                {| column := ColTotal; direction := Ascending |};
                {| column := ColYear; direction := Descending |} ]
              (lookup_singleton_eq 0%nat [leeds; york; bath]))
    as (outs & σ' & Hrun & Hin & Houts & _ & Hadj).
  destruct outs as [|out1 [|out2 [|out3 [|? ?]]]];
    try (exfalso; repeat match goal with
                         | H : Forall2 _ _ _ |- _ => inversion H; clear H; subst
                         end; fail).
  exists out1, out2, out3, σ'.
  apply Forall2_cons_1 in Houts as [[_ H1] Houts].
  apply Forall2_cons_1 in Houts as [[_ H2] Houts].
  apply Forall2_cons_1 in Houts as [[_ H3] _].
  repeat split; try assumption.
  - now apply (Hadj 0%nat {| column := ColTotal; direction := Ascending |}
                 {| column := ColTotal; direction := Ascending |} out1 out2).
  - intros E.
    apply (Hadj 1%nat {| column := ColTotal; direction := Ascending |}
             {| column := ColYear; direction := Descending |} out2 out3) in E;
      try reflexivity. discriminate E.
Defined.
